(** * xlsxmerge: column reconciliation and ordered concatenation

    A shallow embedding of [xlsxmerge.py].  The script loads sheets with
    [pandas.read_excel], collects the column labels of all sheets
    ([compileColumns]), and folds [pandas.concat] over the loaded frames
    ([main]).  The pandas operations the script calls are modelled in
    [Module Pandas]; the functions of the script itself follow. *)

From stdpp Require Import gmap strings list sorting.

Set Warnings "-clear-no-such-hyp".

Local Open Scope string_scope.
Local Open Scope list_scope.

(** ** The part of pandas that the script uses *)

Module Pandas.

(** A cell that holds a value.  A missing cell (NaN) is the absence of the
    label from the row. *)
Inductive cell :=
| VStr (s : string)
| VNum (z : Z)
| VDate (z : Z).

#[export] Instance cell_eq_dec : EqDecision cell.
Proof. solve_decision. Defined.

Abbreviation row := (gmap string cell).

(** [columns] is the column Index (ordered); [rows] are the records in
    positional order, the positional index being the place in the list. *)
Record DataFrame := mkDataFrame {
  columns : list string;
  rows : list row
}.

#[export] Instance DataFrame_eq_dec : EqDecision DataFrame.
Proof. solve_decision. Defined.

(** [len(df)] *)
Definition len (df : DataFrame) : nat := length (rows df).

(** [df.loc[i, c]]: [None] stands for NaN. *)
Definition loc (df : DataFrame) (i : nat) (c : string) : option cell :=
  rows df !! i ≫= (.!! c).

(** [pandas.DataFrame(columns=cols)]: the labels and no record. *)
Definition DataFrame_new (cols : list string) : DataFrame :=
  {| columns := cols; rows := [] |}.

(** [df[key] = value] with a scalar [value]: an existing column keeps its
    place and has all its cells overwritten, a new one is appended. *)
Definition setitem (df : DataFrame) (key : string) (value : cell) : DataFrame :=
  {| columns := if decide (key ∈ columns df) then columns df
                else columns df ++ [key];
     rows := (λ r : row, <[key := value]> r) <$> rows df |}.

Inductive Join := outer | inner.

(** [Index.union(other, sort=False)] and [Index.intersection]. *)
Definition Index_union (a b : list string) : list string :=
  a ++ filter (λ c, c ∉ a) b.

Definition Index_intersection (a b : list string) : list string :=
  filter (λ c, c ∈ b) a.

(** Labels are compared as Python compares [str]: by code point, which on
    UTF-8 bytes is the bytewise lexicographic order. *)
Definition label_le (a b : string) : Prop := String.leb a b = true.

#[export] Instance label_le_dec : RelDecision label_le.
Proof. intros a b. unfold label_le. apply _. Defined.

(** [sort=True] *)
Definition safe_sort_index (idx : list string) : list string :=
  merge_sort label_le idx.

Definition combined_index (join : Join) (a b : list string) : list string :=
  safe_sort_index
    match join with
    | outer => Index_union a b
    | inner => Index_intersection a b
    end.

(** Aligning a record on an Index keeps the cells whose label is in it;
    the labels it lacks read as NaN. *)
Definition reindex (idx : list string) (r : row) : row :=
  filter (λ kv, kv.1 ∈ idx) r.

(** [pandas.concat((a, b), ignore_index=True, sort=True, join=join)] *)
Definition concat (join : Join) (a b : DataFrame) : DataFrame :=
  let idx := combined_index join (columns a) (columns b) in
  {| columns := idx; rows := reindex idx <$> (rows a ++ rows b) |}.

(** The same call as a computation that can raise: realigning an operand
    whose column labels repeat makes pandas raise [InvalidIndexError].
    [None] is that exception; the model gives no value to a concat with a
    repeated label in an operand.  Column sets that merely differ are
    aligned, never refused. *)
Definition concat_checked (join : Join) (a b : DataFrame) : option DataFrame :=
  if decide (NoDup (columns a) ∧ NoDup (columns b)) then Some (concat join a b)
  else None.

End Pandas.

Import Pandas.

(** ** The script *)

Abbreviation frame := (string * DataFrame)%type.

(** [compileColumns], lines 81-100. *)
Definition compileColumns (frames : list frame) (add_type : bool) : list string :=
  let cols : gset string := ∅ in
  let cols := if add_type then cols ∪ {["Type"]} else cols in
  let cols :=
    foldl (λ cols f, foldl (λ cols c, cols ∪ {[c]}) cols (columns f.2))
          cols frames in
  elements cols.

(** The first statement of the loop body of [main], lines 119-120:
    [f[1]['Type'] = f[0]] updates the loaded frame in place. *)
Definition stamp (include_type : bool) (f : frame) : frame :=
  if include_type then (f.1, setitem f.2 "Type" (VStr f.1)) else f.

(** The loop of [main], lines 118-121.  The result pairs [outframe] with the
    loaded frames as the loop leaves them in memory. *)
Fixpoint merge_loop (include_type : bool) (join : Join) (outframe : DataFrame)
    (frames : list frame) : DataFrame * list frame :=
  match frames with
  | [] => (outframe, [])
  | f :: rest =>
      let f := stamp include_type f in
      let outframe := concat join outframe f.2 in
      let '(outframe, rest) := merge_loop include_type join outframe rest in
      (outframe, f :: rest)
  end.

(** [main], lines 113-121, on the frames that [loadSheets] returned. *)
Definition merge (frames : list frame) (include_type common_columns_only : bool)
    : DataFrame * list frame :=
  let cols := compileColumns frames include_type in
  let join := if common_columns_only then inner else outer in
  let outframe := DataFrame_new cols in
  merge_loop include_type join outframe frames.

(** The loop of [main], lines 118-121, with the exception that
    [pandas.concat] can raise: the first failing concat aborts the loop. *)
Fixpoint merge_loop_checked (include_type : bool) (join : Join)
    (outframe : DataFrame) (frames : list frame)
    : option (DataFrame * list frame) :=
  match frames with
  | [] => Some (outframe, [])
  | f :: rest =>
      let f := stamp include_type f in
      outframe ← concat_checked join outframe f.2;
      res ← merge_loop_checked include_type join outframe rest;
      Some (res.1, f :: res.2)
  end.

(** [main], lines 113-121, with that exception. *)
Definition merge_checked (frames : list frame)
    (include_type common_columns_only : bool)
    : option (DataFrame * list frame) :=
  let cols := compileColumns frames include_type in
  let join := if common_columns_only then inner else outer in
  let outframe := DataFrame_new cols in
  merge_loop_checked include_type join outframe frames.

(** The dictionary of [parseArgs]; argparse leaves [None] for an option that
    was not given. *)
Record Args := mkArgs {
  filenames : option (list (list string));
  outpath : option (list string);
  include_type : bool;
  common_columns_only : bool;
  include_index : bool
}.

(** What [main] hands to [DataFrame.to_excel]. *)
Record to_excel_call := mkToExcel {
  excel_frame : DataFrame;
  excel_path : string;
  excel_sheet_name : string;
  excel_index : bool
}.

Section IO.

(** [pandas.read_excel(path, sheetnames)] reads the file system: with a
    list of sheet names, or [None] for all sheets, it returns a dictionary
    from sheet name to frame, here its [items()]; [None] is a raised
    exception. *)
Variable read_excel :
  string → option (list string) → option (list frame).

(** The second argument of [read_excel] at line 68. *)
Definition sheetnames_of (f : list string) : option (list string) :=
  if decide (1 < length f) then Some (tail f) else None.

(** The loop of [loadSheets], lines 65-77, on the accumulator [frames]. *)
Fixpoint loadSheets_loop (frames : list frame) (filenames : list (list string))
    : option (list frame) :=
  match filenames with
  | [] => Some frames
  | f :: rest =>
      path ← head f;
      data ← read_excel path (sheetnames_of f);
      loadSheets_loop (frames ++ data) rest
  end.

Definition loadSheets (filenames : list (list string)) : option (list frame) :=
  loadSheets_loop [] filenames.

(** [main], with the write to disk returned as a value. *)
Definition main (args : Args) : option to_excel_call :=
  names ← filenames args;
  frames ← loadSheets names;
  let outframe := (merge frames (include_type args) (common_columns_only args)).1 in
  out ← outpath args;
  outfile_name ← head out;
  let sheet_name := if decide (1 < length out) then default "Sheet1" (out !! 1)
                    else "Sheet1" in
  Some {| excel_frame := outframe; excel_path := outfile_name;
          excel_sheet_name := sheet_name; excel_index := include_index args |}.

End IO.

(** One iteration of the loop of [main] on [outframe], lines 119-121. *)
Definition step (include_type : bool) (join : Join) (out : DataFrame) (f : frame)
    : DataFrame :=
  concat join out (stamp include_type f).2.

(** The records of all loaded tables, in load order, as the loop reads them. *)
Definition all_rows (include_type : bool) (frames : list frame) : list row :=
  frames ≫= (λ f : frame, rows (stamp include_type f).2).

(** ** Vocabulary of the specification *)

(** The column set of a table. *)
Definition col_set (df : DataFrame) : gset string := list_to_set (columns df).

(** The sum of the row counts of the tables. *)
Definition row_total (frames : list frame) : nat :=
  sum_list_with (λ f : frame, len f.2) frames.

(** The set union of every table's column names. *)
Definition union_columns (frames : list frame) : gset string :=
  ⋃ ((λ f : frame, col_set f.2) <$> frames).

(** The set intersection of every table's column names; over no table at
    all it is taken to be empty. *)
Definition common_columns (frames : list frame) : gset string :=
  match frames with
  | [] => ∅
  | f :: rest => foldl (λ s (g : frame), s ∩ col_set g.2) (col_set f.2) rest
  end.

(** The synthetic column, when it is enabled. *)
Definition type_column (add_type : bool) : gset string :=
  if add_type then {["Type"]} else ∅.

(** A record of the sheet [name], as the loop stamps it. *)
Definition stamp_row (include_type : bool) (name : string) (r : row) : row :=
  if include_type then <["Type" := VStr name]> r else r.

(** Every record of a table keeps its cells under the table's own labels. *)
Definition wf_frame (df : DataFrame) : Prop :=
  Forall (λ r : row, dom r ⊆ col_set df) (rows df).

#[global] Instance wf_frame_dec df : Decision (wf_frame df).
Proof. unfold wf_frame. apply _. Defined.

(** ** Sample sheets: the scenario of two files *)

Definition sales : DataFrame :=
  {| columns := ["Name"; "Amount"];
     rows := [ {[ "Name" := VStr "ann"; "Amount" := VNum 10 ]};
               {[ "Name" := VStr "bob"; "Amount" := VNum 20 ]} ] |}.

Definition refunds : DataFrame :=
  {| columns := ["Name"; "Reason"];
     rows := [ {[ "Name" := VStr "cy"; "Reason" := VStr "late" ]} ] |}.

Definition scenario : list frame := [("Sales", sales); ("Refunds", refunds)].

(** A disk with two workbooks, and [read_excel] on it. *)
Definition sample_disk : list (string * list frame) :=
  [("sales.xlsx", [("Sales", sales)]); ("refunds.xlsx", [("Refunds", refunds)])].

Definition sample_read_excel (path : string) (sheetnames : option (list string))
    : option (list frame) :=
  book ← snd <$> list_find (λ b, b.1 = path) sample_disk;
  match sheetnames with
  | None => Some book.2
  | Some names =>
      mapM (λ n, snd <$> list_find (λ s : frame, s.1 = n) book.2) names
  end.

(** ** pandas: column labels *)

Section index_lemmas.
Implicit Types a b idx : list string.

Lemma elem_of_safe_sort_index idx c : c ∈ safe_sort_index idx ↔ c ∈ idx.
Proof.
  unfold safe_sort_index. by rewrite (merge_sort_Permutation label_le idx).
Qed.

Lemma list_to_set_safe_sort_index idx :
  list_to_set (safe_sort_index idx) =@{gset string} list_to_set idx.
Proof.
  unfold safe_sort_index. by rewrite (merge_sort_Permutation label_le idx).
Qed.

Lemma col_set_concat_outer x y :
  col_set (concat outer x y) = col_set x ∪ col_set y.
Proof.
  unfold col_set, concat, combined_index, Index_union. simpl.
  rewrite list_to_set_safe_sort_index, list_to_set_app_L.
  apply set_eq. intros c.
  rewrite !elem_of_union, !elem_of_list_to_set, list_elem_of_filter.
  destruct (decide (c ∈ columns x)); naive_solver.
Qed.

Lemma col_set_concat_inner x y :
  col_set (concat inner x y) = col_set x ∩ col_set y.
Proof.
  unfold col_set, concat, combined_index, Index_intersection. simpl.
  rewrite list_to_set_safe_sort_index.
  apply set_eq. intros c.
  rewrite elem_of_intersection, !elem_of_list_to_set, list_elem_of_filter.
  naive_solver.
Qed.

Lemma col_set_setitem df key v :
  col_set (setitem df key v) = col_set df ∪ {[key]}.
Proof.
  unfold col_set, setitem. simpl. case_decide as Hin.
  - apply (elem_of_list_to_set (C := gset string)) in Hin. set_solver.
  - by rewrite list_to_set_snoc_L.
Qed.

Lemma col_set_stamp t f :
  col_set (stamp t f).2 = col_set f.2 ∪ type_column t.
Proof.
  destruct t; simpl.
  - apply col_set_setitem.
  - unfold type_column. set_solver.
Qed.

End index_lemmas.

(** ** The Reconciler *)

Lemma compileColumns_inner_loop (cols : gset string) (l : list string) :
  foldl (λ cols c, cols ∪ {[c]}) cols l = cols ∪ list_to_set l.
Proof.
  revert cols. induction l as [|c l IH]; intros cols; simpl.
  - set_solver.
  - rewrite IH. set_solver.
Qed.

Lemma compileColumns_outer_loop (cols : gset string) (frames : list frame) :
  foldl (λ cols (f : frame), foldl (λ cols c, cols ∪ {[c]}) cols (columns f.2))
        cols frames
  = cols ∪ union_columns frames.
Proof.
  revert cols. induction frames as [|f frames IH]; intros cols; simpl.
  - unfold union_columns. simpl. set_solver.
  - rewrite IH, compileColumns_inner_loop. unfold union_columns, col_set.
    simpl. set_solver.
Qed.

Lemma compileColumns_set frames add_type :
  list_to_set (compileColumns frames add_type)
  =@{gset string} type_column add_type ∪ union_columns frames.
Proof.
  unfold compileColumns. rewrite list_to_set_elements_L.
  rewrite compileColumns_outer_loop. destruct add_type; simpl; set_solver.
Qed.

Lemma union_columns_app l k :
  union_columns (l ++ k) = union_columns l ∪ union_columns k.
Proof.
  unfold union_columns. rewrite fmap_app. apply leibniz_equiv, union_list_app.
Qed.

Lemma union_columns_cons f k :
  union_columns (f :: k) = col_set f.2 ∪ union_columns k.
Proof. reflexivity. Qed.

Lemma elem_of_union_columns frames c :
  c ∈ union_columns frames ↔ ∃ f : frame, f ∈ frames ∧ c ∈ columns f.2.
Proof.
  unfold union_columns. rewrite elem_of_union_list. split.
  - intros (X & HX & Hc). apply list_elem_of_fmap in HX as (f & -> & Hf).
    exists f. split; [done|]. by apply elem_of_list_to_set in Hc.
  - intros (f & Hf & Hc). exists (col_set f.2). split.
    + apply list_elem_of_fmap. by exists f.
    + by apply elem_of_list_to_set.
Qed.

Lemma elem_of_common_columns frames c :
  c ∈ common_columns frames
  ↔ frames ≠ [] ∧ ∀ f : frame, f ∈ frames → c ∈ columns f.2.
Proof.
  destruct frames as [|f rest]; simpl.
  - split; [set_solver | by intros [? _]].
  - assert (∀ s : gset string,
      c ∈ foldl (λ s (g : frame), s ∩ col_set g.2) s rest
      ↔ c ∈ s ∧ ∀ g : frame, g ∈ rest → c ∈ columns g.2) as Hfold.
    { induction rest as [|g rest IH]; intros s; simpl.
      - split; [intros ?; split; [done|]; by intros ? ?%elem_of_nil | tauto].
      - rewrite IH, elem_of_intersection. unfold col_set.
        rewrite elem_of_list_to_set. split.
        + intros [[? ?] Hall]. split; [done|].
          intros g' [->|?]%elem_of_cons; auto.
        + intros [? Hall]. repeat split; [done| |].
          * apply Hall. left.
          * intros g' ?. apply Hall. by right. }
    rewrite Hfold. unfold col_set. rewrite elem_of_list_to_set. split.
    + intros [? Hall]. split; [done|].
      intros g [->|?]%elem_of_cons; auto.
    + intros [_ Hall]. split.
      * apply Hall. left.
      * intros g ?. apply Hall. by right.
Qed.

(** ** The loop of the Merger *)

Lemma merge_loop_fst t j out frames :
  (merge_loop t j out frames).1 = foldl (step t j) out frames.
Proof.
  revert out. induction frames as [|f frames IH]; intros out; simpl; [done|].
  specialize (IH (concat j out (stamp t f).2)).
  destruct (merge_loop t j (concat j out (stamp t f).2) frames). apply IH.
Qed.

Lemma merge_loop_snd t j out frames :
  (merge_loop t j out frames).2 = stamp t <$> frames.
Proof.
  revert out. induction frames as [|f frames IH]; intros out; simpl; [done|].
  specialize (IH (concat j out (stamp t f).2)).
  destruct (merge_loop t j (concat j out (stamp t f).2) frames). simpl in *.
  by rewrite IH.
Qed.

Lemma col_set_loop_outer t out frames :
  col_set (foldl (step t outer) out frames)
  = col_set out ∪ (union_columns frames ∪
                   match frames with [] => ∅ | _ => type_column t end).
Proof.
  revert out. induction frames as [|f frames IH]; intros out; simpl.
  - unfold union_columns. simpl. set_solver.
  - rewrite IH. unfold step. rewrite col_set_concat_outer, col_set_stamp.
    rewrite union_columns_cons. destruct frames; set_solver.
Qed.

Lemma col_set_loop_inner_from t (s : gset string) out frames :
  col_set out = s ∪ type_column t →
  col_set (foldl (step t inner) out frames)
  = foldl (λ s (g : frame), s ∩ col_set g.2) s frames ∪ type_column t.
Proof.
  revert s out. induction frames as [|f frames IH]; intros s out Hout; simpl.
  - done.
  - apply IH. unfold step. rewrite col_set_concat_inner, col_set_stamp, Hout.
    set_solver.
Qed.

(** ** The records of the merged table *)

Lemma reindex_reindex (idx1 idx2 : list string) (r : row) :
  (∀ c, c ∈ idx2 → c ∈ idx1) →
  reindex idx2 (reindex idx1 r) = reindex idx2 r.
Proof.
  intros Hsub. apply map_eq. intros k. apply option_eq. intros v.
  unfold reindex. rewrite !map_lookup_filter_Some. simpl. naive_solver.
Qed.

Lemma reindex_lookup (idx : list string) (r : row) c :
  reindex idx r !! c = if decide (c ∈ idx) then r !! c else None.
Proof.
  unfold reindex. apply option_eq. intros v.
  rewrite map_lookup_filter_Some. simpl. case_decide; naive_solver.
Qed.

Lemma rows_stamp t (f : frame) :
  rows (stamp t f).2 = stamp_row t f.1 <$> rows f.2.
Proof. destruct t; simpl; [done|]. by rewrite list_fmap_id. Qed.

Lemma len_stamp t (f : frame) : len (stamp t f).2 = len f.2.
Proof. unfold len. by rewrite rows_stamp, length_fmap. Qed.

Lemma fst_stamp t (f : frame) : (stamp t f).1 = f.1.
Proof. by destruct t. Qed.

Lemma elem_of_combined_index j a b c :
  c ∈ combined_index j a b
  ↔ match j with outer => c ∈ a ∨ c ∈ b | inner => c ∈ a ∧ c ∈ b end.
Proof.
  unfold combined_index. rewrite elem_of_safe_sort_index. destruct j.
  - unfold Index_union. rewrite elem_of_app, list_elem_of_filter.
    destruct (decide (c ∈ a)); naive_solver.
  - unfold Index_intersection. rewrite list_elem_of_filter. naive_solver.
Qed.

Lemma all_rows_cons t f frames :
  all_rows t (f :: frames) = rows (stamp t f).2 ++ all_rows t frames.
Proof. reflexivity. Qed.

Lemma all_rows_app t l k : all_rows t (l ++ k) = all_rows t l ++ all_rows t k.
Proof. apply bind_app. Qed.

Lemma rows_loop t j frames : ∀ out (l : list row),
  rows out = reindex (columns out) <$> l →
  j = inner ∨ Forall (λ f : frame, col_set (stamp t f).2 ⊆ col_set out) frames →
  rows (foldl (step t j) out frames)
  = reindex (columns (foldl (step t j) out frames)) <$> (l ++ all_rows t frames).
Proof.
  induction frames as [|f frames IH]; intros out l Hout Hcols.
  - simpl. by rewrite app_nil_r.
  - rewrite all_rows_cons, app_assoc. simpl. apply IH.
    + unfold step. simpl. rewrite Hout, !fmap_app. f_equal.
      rewrite <-list_fmap_compose. apply list_fmap_ext. intros _ r _. simpl.
      apply reindex_reindex. intros c Hc.
      apply elem_of_combined_index in Hc. destruct j.
      * destruct Hcols as [?|Hall]; [done|].
        destruct Hc as [?|Hc]; [done|].
        apply Forall_cons in Hall as [Hf _].
        apply (elem_of_list_to_set (C := gset string)).
        apply Hf. by apply elem_of_list_to_set.
      * tauto.
    + destruct j; [right|by left].
      destruct Hcols as [?|Hall]; [done|].
      apply Forall_cons in Hall as [_ Hall].
      eapply Forall_impl; [exact Hall|]. intros g Hg. simpl in Hg.
      unfold step. rewrite col_set_concat_outer. set_solver.
Qed.

Lemma stamped_columns_compiled t frames :
  Forall (λ f : frame,
            col_set (stamp t f).2
            ⊆ col_set (DataFrame_new (compileColumns frames t))) frames.
Proof.
  apply Forall_forall. intros f Hf. rewrite col_set_stamp.
  unfold col_set at 2. simpl. rewrite compileColumns_set.
  intros c [Hc|Hc]%elem_of_union; [|set_solver].
  apply elem_of_union_r, elem_of_union_columns. exists f.
  split; [done|]. by apply elem_of_list_to_set in Hc.
Qed.

Lemma merge_fst frames t c :
  (merge frames t c).1
  = foldl (step t (if c then inner else outer))
          (DataFrame_new (compileColumns frames t)) frames.
Proof. unfold merge. apply merge_loop_fst. Qed.

Lemma merge_snd frames t c : (merge frames t c).2 = stamp t <$> frames.
Proof. unfold merge. apply merge_loop_snd. Qed.

(** The merged records are the records of the tables in load order, each
    aligned on the merged column labels. *)
Lemma merge_rows frames t c :
  rows (merge frames t c).1
  = reindex (columns (merge frames t c).1) <$> all_rows t frames.
Proof.
  rewrite merge_fst.
  apply (rows_loop t _ frames (DataFrame_new (compileColumns frames t)) []).
  - done.
  - destruct c; [by left|right]. apply stamped_columns_compiled.
Qed.

Lemma length_all_rows t frames : length (all_rows t frames) = row_total frames.
Proof.
  unfold row_total. induction frames as [|f frames IH]; [done|].
  rewrite all_rows_cons, length_app, IH. simpl. f_equal. apply len_stamp.
Qed.

Lemma row_total_app l k : row_total (l ++ k) = row_total l + row_total k.
Proof. apply sum_list_with_app. Qed.

Lemma row_total_cons f l : row_total (f :: l) = len f.2 + row_total l.
Proof. reflexivity. Qed.

Lemma all_rows_lookup t pre (f : frame) post i r :
  rows f.2 !! i = Some r →
  all_rows t (pre ++ f :: post) !! (row_total pre + i)
  = Some (stamp_row t f.1 r).
Proof.
  intros Hr. rewrite all_rows_app, all_rows_cons.
  rewrite lookup_app_r by (rewrite length_all_rows; lia).
  rewrite length_all_rows.
  replace (row_total pre + i - row_total pre) with i by lia.
  rewrite lookup_app_l.
  - by rewrite rows_stamp, list_lookup_fmap, Hr.
  - rewrite rows_stamp, length_fmap. by eapply lookup_lt_Some.
Qed.

Lemma merge_lookup frames t c pre (f : frame) post i r :
  frames = pre ++ f :: post →
  rows f.2 !! i = Some r →
  rows (merge frames t c).1 !! (row_total pre + i)
  = Some (reindex (columns (merge frames t c).1) (stamp_row t f.1 r)).
Proof.
  intros -> Hr. rewrite merge_rows, list_lookup_fmap.
  by rewrite (all_rows_lookup t pre f post i r Hr).
Qed.

(** The column set of the merged table, in each join mode. *)
Lemma merge_columns_outer frames t :
  col_set (merge frames t false).1 = union_columns frames ∪ type_column t.
Proof.
  rewrite merge_fst, col_set_loop_outer. unfold col_set at 1. simpl.
  rewrite compileColumns_set. destruct frames; set_solver.
Qed.

Lemma merge_columns_inner frames t :
  col_set (merge frames t true).1 = common_columns frames ∪ type_column t.
Proof.
  rewrite merge_fst. destruct frames as [|f rest].
  - simpl. unfold col_set. simpl. rewrite compileColumns_set.
    unfold union_columns. simpl. set_solver.
  - simpl. apply col_set_loop_inner_from.
    unfold step. rewrite col_set_concat_inner, col_set_stamp.
    unfold col_set at 1. simpl. rewrite compileColumns_set.
    rewrite union_columns_cons. set_solver.
Qed.

(** ** Row count and column sets of the merged table *)

(** C1. For every sequence of loaded tables and in both join modes, the
    merged table has as many rows as all loaded tables together. *)
Theorem merged_row_count frames add_type common_only :
  len (merge frames add_type common_only).1 = row_total frames.
Proof.
  unfold len. by rewrite merge_rows, length_fmap, length_all_rows.
Qed.

(** C2. In union mode the column set of the merged table is the union of
    the column names of all tables, plus "Type" when the type column is
    enabled; the columns of every input table are among them. *)
Theorem union_mode_columns frames add_type :
  col_set (merge frames add_type false).1
  = union_columns frames ∪ type_column add_type
  ∧ Forall (λ f : frame, col_set f.2 ⊆ col_set (merge frames add_type false).1)
           frames.
Proof.
  split; [apply merge_columns_outer|].
  apply Forall_forall. intros f Hf c Hc. rewrite merge_columns_outer.
  apply elem_of_union_l, elem_of_union_columns. exists f.
  split; [done|]. by apply elem_of_list_to_set in Hc.
Qed.

(** C3, as the claim states it, fails: with the type column enabled the two
    sheets share only "Name", and the intersection join still carries
    "Type". *)
Lemma intersection_mode_type_forced :
  common_columns scenario = {["Name"]}
  ∧ col_set (merge scenario true true).1 = {["Name"; "Type"]}
  ∧ col_set (merge scenario true true).1 ≠ common_columns scenario.
Proof. split; [|split]; vm_compute; [reflexivity..|discriminate]. Qed.

(** C3, amended. In intersection mode the column set of the merged table is
    the intersection of the column names of all tables, plus "Type"
    whenever the type column is enabled. *)
Theorem intersection_mode_columns frames add_type :
  col_set (merge frames add_type true).1
  = common_columns frames ∪ type_column add_type.
Proof. apply merge_columns_inner. Qed.

(** C10. With the type column enabled, "Type" is in the compiled column
    set, in every loaded table once the loop has run, and in the merged
    table, whatever the join mode. *)
Theorem type_column_in_every_mode frames common_only :
  "Type" ∈ compileColumns frames true
  ∧ Forall (λ f : frame, "Type" ∈ columns f.2) (merge frames true common_only).2
  ∧ "Type" ∈ columns (merge frames true common_only).1.
Proof.
  split; [|split].
  - apply (elem_of_list_to_set (C := gset string)).
    rewrite compileColumns_set. set_solver.
  - rewrite merge_snd. apply Forall_fmap, Forall_forall. intros f _. simpl.
    apply (elem_of_list_to_set (C := gset string)).
    change ("Type" ∈ col_set (stamp true f).2). rewrite col_set_stamp.
    set_solver.
  - apply (elem_of_list_to_set (C := gset string)).
    change ("Type" ∈ col_set (merge frames true common_only).1).
    destruct common_only.
    + rewrite merge_columns_inner. set_solver.
    + rewrite merge_columns_outer. set_solver.
Qed.

(** C7, as the claim states it, fails: with the type column enabled the
    Reconciler returns "Type" for no table at all. *)
Lemma no_table_type_column :
  compileColumns [] true = ["Type"]
  ∧ compileColumns [] true ≠ []
  ∧ columns (merge [] true false).1 ≠ []
  ∧ columns (merge [] true true).1 ≠ [].
Proof. repeat split; vm_compute; (reflexivity || discriminate). Qed.

(** C7, amended. For no loaded table the Reconciler returns no column, or
    just "Type" when the type column is enabled; the Merger returns a table
    of these columns and no row, in both join modes. *)
Theorem no_table_merge add_type common_only :
  compileColumns [] add_type = (if add_type then ["Type"] else [])
  ∧ merge [] add_type common_only
    = ({| columns := if add_type then ["Type"] else []; rows := [] |}, []).
Proof.
  assert (compileColumns [] add_type = (if add_type then ["Type"] else []))
    as Hcols.
  { unfold compileColumns. destruct add_type; simpl.
    - rewrite (left_id_L ∅ (∪)). apply elements_singleton.
    - apply elements_empty. }
  split; [done|]. unfold merge. simpl. by rewrite Hcols.
Qed.

(** ** Provenance: where each merged record comes from *)

Lemma loadSheets_loop_items read_excel names : ∀ acc frames,
  loadSheets_loop read_excel acc names = Some frames →
  ∀ x, x ∈ frames →
    x ∈ acc ∨ ∃ f path data,
      f ∈ names ∧ head f = Some path
      ∧ read_excel path (sheetnames_of f) = Some data ∧ x ∈ data.
Proof.
  induction names as [|f names IH]; intros acc frames Hload x Hx; simpl in Hload.
  - left. congruence.
  - destruct (head f) as [path|] eqn:Hpath; [|done]. simpl in Hload.
    destruct (read_excel path (sheetnames_of f)) as [data|] eqn:Hdata; [|done].
    simpl in Hload.
    destruct (IH _ _ Hload x Hx) as [[?|?]%elem_of_app|(g & p & d & ? & ?)].
    + by left.
    + right. exists f, path, data. split; [left|done].
    + right. exists g, p, d. split; [by right|done].
Qed.

(** What [main] writes is the merge of what [loadSheets] returned. *)
Lemma main_writes_merge read_excel args call :
  main read_excel args = Some call →
  ∃ names frames,
    filenames args = Some names
    ∧ loadSheets read_excel names = Some frames
    ∧ excel_frame call
      = (merge frames (include_type args) (common_columns_only args)).1
    ∧ excel_index call = include_index args.
Proof.
  unfold main. intros Hmain.
  destruct (filenames args) as [names|]; [|done]. simpl in Hmain.
  destruct (loadSheets read_excel names) as [frames|] eqn:Hload; [|done].
  simpl in Hmain.
  destruct (outpath args) as [out|]; [|done]. simpl in Hmain.
  destruct (head out) as [outfile_name|]; [|done]. simpl in Hmain.
  exists names, frames. by simplify_eq.
Qed.

(** C5. With the type column enabled, "Type" is a column of the merged
    table and every merged record carries in it the name of the sheet it
    comes from, whatever the source table held under "Type"; that name is a
    key of the dictionary [read_excel] returned, not the path given to it. *)
Theorem type_cell_is_sheet_name common_only frames pre name df post i :
  frames = pre ++ (name, df) :: post →
  i < len df →
  let out := (merge frames true common_only).1 in
  "Type" ∈ columns out
  ∧ loc out (row_total pre + i) "Type" = Some (VStr name)
  ∧ ∀ read_excel names,
      loadSheets read_excel names = Some frames →
      ∃ f path data,
        f ∈ names ∧ head f = Some path
        ∧ read_excel path (sheetnames_of f) = Some data ∧ (name, df) ∈ data.
Proof.
  intros Hframes Hi out.
  assert ("Type" ∈ columns out) as Hcol.
  { apply (elem_of_list_to_set (C := gset string)).
    change ("Type" ∈ col_set (merge frames true common_only).1).
    destruct common_only.
    - rewrite merge_columns_inner. set_solver.
    - rewrite merge_columns_outer. set_solver. }
  split; [done|split].
  - apply lookup_lt_is_Some_2 in Hi as [r Hr]. unfold loc, out.
    rewrite (merge_lookup frames true common_only pre (name, df) post i r Hframes Hr).
    simpl. rewrite reindex_lookup, decide_True by done.
    apply lookup_insert_eq.
  - intros read_excel names Hload.
    destruct (loadSheets_loop_items read_excel names [] frames Hload (name, df))
      as [Hnil|?]; [|by apply elem_of_nil in Hnil|done].
    rewrite Hframes. apply elem_of_app. right. left.
Qed.

Lemma type_cell_is_sheet_name_witness :
  "Type" ∈ columns (merge scenario true true).1
  ∧ loc (merge scenario true true).1 2 "Type" = Some (VStr "Refunds")
  ∧ ∃ f path data,
      f ∈ [["sales.xlsx"]; ["refunds.xlsx"; "Refunds"]] ∧ head f = Some path
      ∧ sample_read_excel path (sheetnames_of f) = Some data
      ∧ ("Refunds", refunds) ∈ data.
Proof.
  destruct (type_cell_is_sheet_name true scenario [("Sales", sales)] "Refunds"
              refunds [] 0 eq_refl) as (Hcol & Hcell & Hname).
  - unfold len. simpl. lia.
  - split; [exact Hcol|split; [exact Hcell|]].
    apply (Hname sample_read_excel). reflexivity.
Defined.

(** ** Stability of the column set during the loop *)

(** C6, as the claim states it, fails: in intersection mode, once "Sales"
    is merged the accumulated table has lost "Reason", which the Reconciler
    had compiled. *)
Lemma inner_loop_shrinks_columns :
  list_to_set (compileColumns scenario false)
    =@{gset string} {["Amount"; "Name"; "Reason"]}
  ∧ col_set (merge_loop false inner
               (DataFrame_new (compileColumns scenario false))
               [("Sales", sales)]).1
    = {["Amount"; "Name"]}
  ∧ col_set (merge_loop false inner
               (DataFrame_new (compileColumns scenario false))
               [("Sales", sales)]).1
    ≠ list_to_set (compileColumns scenario false).
Proof. split; [|split]; vm_compute; [reflexivity..|discriminate]. Qed.

(** C6, amended. The column set is compiled once, before the loop.  In
    union mode the accumulated table has exactly this column set after
    every iteration.  In intersection mode it has, after every iteration, a
    subset of it: the columns common to the tables merged so far, plus
    "Type" when the type column is enabled. *)
Theorem column_set_during_loop pre post (add_type common_only : bool) :
  let cols := compileColumns (pre ++ post) add_type in
  let acc := (merge_loop add_type (if common_only then inner else outer)
                (DataFrame_new cols) pre).1 in
  if common_only then
    col_set acc ⊆ list_to_set cols
    ∧ col_set acc = match pre with
                    | [] => list_to_set cols
                    | _ => common_columns pre ∪ type_column add_type
                    end
  else col_set acc = list_to_set cols.
Proof.
  intros cols acc. unfold acc. rewrite merge_loop_fst.
  assert (list_to_set cols =@{gset string}
          type_column add_type ∪ (union_columns pre ∪ union_columns post))
    as Hcols.
  { unfold cols. by rewrite compileColumns_set, union_columns_app. }
  destruct common_only.
  - assert (col_set (foldl (step add_type inner) (DataFrame_new cols) pre)
            = match pre with
              | [] => list_to_set cols
              | _ => common_columns pre ∪ type_column add_type
              end) as Heq.
    { destruct pre as [|f rest]; [done|]. simpl.
      apply col_set_loop_inner_from. unfold step.
      rewrite col_set_concat_inner, col_set_stamp. unfold col_set at 1.
      simpl. fold cols. rewrite Hcols, union_columns_cons. set_solver. }
    split; [|done]. rewrite Heq. destruct pre as [|f rest]; [done|].
    rewrite Hcols. intros c [Hc|Hc]%elem_of_union; [|set_solver].
    apply elem_of_common_columns in Hc as [_ Hc].
    apply elem_of_union_r, elem_of_union_l, elem_of_union_columns.
    exists f. split; [left|]. apply Hc. left.
  - rewrite col_set_loop_outer. unfold col_set at 1. simpl. fold cols.
    rewrite Hcols. destruct pre; set_solver.
Qed.

(** ** The loaded tables after the merge *)

(** C9. After the merge the loaded tables are as they were loaded, but for
    the "Type" column: without the type column they are the same tables;
    with it, every table keeps its name, its other columns in their order,
    and its records in their order with all cells outside "Type". *)
Theorem loaded_tables_unchanged frames add_type common_only :
  (merge frames false common_only).2 = frames
  ∧ Forall2 (λ f f' : frame,
               f'.1 = f.1
               ∧ filter (λ c, c ≠ "Type") (columns f'.2)
                 = filter (λ c, c ≠ "Type") (columns f.2)
               ∧ delete "Type" <$> rows f'.2 = delete "Type" <$> rows f.2)
            frames (merge frames add_type common_only).2.
Proof.
  rewrite !merge_snd. split.
  - simpl. apply list_fmap_id.
  - apply Forall2_fmap_r, Forall_Forall2_diag, Forall_forall. intros f _.
    destruct add_type; simpl; [|done]. split; [done|split].
    + case_decide; [done|]. rewrite filter_app. simpl. apply app_nil_r.
    + rewrite <-list_fmap_compose. apply list_fmap_ext. intros _ r _. simpl.
      apply delete_insert_eq.
Qed.

(** ** [loadSheets]: what is read, and when loading fails *)

(** The accumulator of the loop is a prefix of its result. *)
Lemma loadSheets_loop_acc read_excel names : ∀ acc,
  loadSheets_loop read_excel acc names
  = (acc ++.) <$> loadSheets_loop read_excel [] names.
Proof.
  induction names as [|f names IH]; intros acc; simpl.
  - by rewrite app_nil_r.
  - destruct (head f) as [path|]; [|done]. simpl.
    destruct (read_excel path (sheetnames_of f)) as [data|]; [|done]. simpl.
    rewrite (IH (acc ++ data)), (IH data).
    destruct (loadSheets_loop read_excel [] names) as [rest|]; [|done].
    simpl. by rewrite app_assoc.
Qed.

Lemma loadSheets_cons read_excel f names :
  loadSheets read_excel (f :: names)
  = path ← head f;
    data ← read_excel path (sheetnames_of f);
    (data ++.) <$> loadSheets read_excel names.
Proof.
  unfold loadSheets. simpl. destruct (head f) as [path|]; [|done]. simpl.
  destruct (read_excel path (sheetnames_of f)) as [data|]; [|done]. simpl.
  apply loadSheets_loop_acc.
Qed.

Lemma loadSheets_Some read_excel names : ∀ frames,
  loadSheets read_excel names = Some frames
  ↔ ∃ datas,
      Forall2 (λ f data, ∃ path, head f = Some path
                 ∧ read_excel path (sheetnames_of f) = Some data) names datas
      ∧ frames = mjoin datas.
Proof.
  induction names as [|f names IH]; intros frames.
  - unfold loadSheets. simpl. split.
    + intros [= <-]. exists []. split; [constructor|done].
    + intros (datas & Hall & ->). by apply Forall2_nil_inv_l in Hall as ->.
  - rewrite loadSheets_cons. split.
    + intros Hload. destruct (head f) as [path|] eqn:Hpath; [|done].
      simpl in Hload.
      destruct (read_excel path (sheetnames_of f)) as [data|] eqn:Hdata; [|done].
      simpl in Hload.
      destruct (loadSheets read_excel names) as [rest|] eqn:Hrest; [|done].
      injection Hload as <-.
      destruct (proj1 (IH rest) eq_refl) as (datas & Hall & ->).
      exists (data :: datas). split; [|done].
      constructor; [|done]. by exists path.
    + intros (datas & Hall & ->).
      apply Forall2_cons_inv_l in Hall
        as (data & datas' & (path & Hpath & Hdata) & Hall & ->).
      rewrite Hpath. simpl. rewrite Hdata. simpl.
      rewrite (proj2 (IH (mjoin datas'))); [done|]. by exists datas'.
Qed.

(** X1. [loadSheets] succeeds exactly when every entry has a path and
    [read_excel] succeeds on each; the frames are then the items of the
    returned dictionaries, file after file in the order of the entries. *)
Theorem loadSheets_reads_in_order read_excel names frames :
  loadSheets read_excel names = Some frames
  ↔ ∃ datas,
      Forall2 (λ f data, ∃ path, head f = Some path
                 ∧ read_excel path (sheetnames_of f) = Some data) names datas
      ∧ frames = mjoin datas.
Proof. apply loadSheets_Some. Qed.

(** X2. Loading two lists of entries one after the other is loading their
    concatenation: the frames of the first list come first. *)
Theorem loadSheets_app read_excel names1 names2 :
  loadSheets read_excel (names1 ++ names2)
  = frames1 ← loadSheets read_excel names1;
    frames2 ← loadSheets read_excel names2;
    Some (frames1 ++ frames2).
Proof.
  induction names1 as [|f names1 IH].
  - simpl. change (loadSheets read_excel []) with (Some (@nil frame)). simpl.
    by destruct (loadSheets read_excel names2).
  - rewrite <-app_comm_cons, !loadSheets_cons.
    destruct (head f) as [path|]; [|done]. simpl.
    destruct (read_excel path (sheetnames_of f)) as [data|]; [|done]. simpl.
    rewrite IH. destruct (loadSheets read_excel names1) as [frames1|]; [|done].
    simpl. destruct (loadSheets read_excel names2) as [frames2|]; [|done].
    simpl. by rewrite app_assoc.
Qed.

(** X3. One bad entry fails the whole load, wherever it stands in the list:
    an entry without a path, or one on which [read_excel] raises. *)
Theorem loadSheets_fails read_excel names f :
  f ∈ names →
  (head f ≫= λ path, read_excel path (sheetnames_of f)) = None →
  loadSheets read_excel names = None.
Proof.
  intros Hf Hbad. destruct (loadSheets read_excel names) as [frames|] eqn:Hload;
    [|done].
  apply loadSheets_Some in Hload as (datas & Hall & _).
  apply list_elem_of_lookup in Hf as [i Hi].
  destruct (Forall2_lookup_l _ _ _ _ _ Hall Hi)
    as (data & _ & path & Hpath & Hdata).
  rewrite Hpath in Hbad. simpl in Hbad. congruence.
Qed.

Lemma loadSheets_fails_witness :
  loadSheets sample_read_excel [["sales.xlsx"]; ["sales.xlsx"; "Q3"]] = None.
Proof.
  apply (loadSheets_fails sample_read_excel _ ["sales.xlsx"; "Q3"]).
  - apply (bool_decide_unpack _). vm_compute. exact I.
  - vm_compute. reflexivity.
Defined.

(** X4. An entry that is only a path asks [read_excel] for all sheets
    ([None]); an entry with sheet names asks for exactly these, in the order
    given. *)
Theorem loadSheets_sheet_selection read_excel path s sheets :
  loadSheets read_excel [[path]] = read_excel path None
  ∧ loadSheets read_excel [path :: s :: sheets]
    = read_excel path (Some (s :: sheets)).
Proof.
  split; rewrite loadSheets_cons; simpl.
  - unfold sheetnames_of. simpl.
    destruct (read_excel path None); simpl; [|done]. by rewrite app_nil_r.
  - unfold sheetnames_of. rewrite decide_True by (simpl; lia). simpl.
    destruct (read_excel path (Some (s :: sheets))); simpl; [|done].
    by rewrite app_nil_r.
Qed.

(** ** [compileColumns]: the labels it returns *)

Lemma elem_of_compileColumns frames add_type c :
  c ∈ compileColumns frames add_type
  ↔ (add_type = true ∧ c = "Type")
    ∨ ∃ f : frame, f ∈ frames ∧ c ∈ columns f.2.
Proof.
  rewrite <-(elem_of_list_to_set (C := gset string)), compileColumns_set.
  rewrite elem_of_union, elem_of_union_columns.
  destruct add_type; simpl; set_solver.
Qed.

Lemma NoDup_compileColumns frames add_type :
  NoDup (compileColumns frames add_type).
Proof. unfold compileColumns. apply NoDup_elements. Qed.

(** X5. [compileColumns] returns every label once: the labels that occur in
    some frame, and "Type" when [add_type] is set; a frame that has its own
    "Type" column does not make it appear twice. *)
Theorem compileColumns_labels frames add_type :
  NoDup (compileColumns frames add_type)
  ∧ ∀ c, c ∈ compileColumns frames add_type
         ↔ (add_type = true ∧ c = "Type")
           ∨ ∃ f : frame, f ∈ frames ∧ c ∈ columns f.2.
Proof.
  split; [apply NoDup_compileColumns|]. intros c. apply elem_of_compileColumns.
Qed.

(** X6. The order in which the frames were loaded does not change the
    labels that [compileColumns] returns. *)
Theorem compileColumns_order_independent frames frames' add_type :
  frames ≡ₚ frames' →
  compileColumns frames add_type ≡ₚ compileColumns frames' add_type.
Proof.
  intros Hperm. apply NoDup_Permutation; [apply NoDup_compileColumns..|].
  intros c. rewrite !elem_of_compileColumns.
  by setoid_rewrite Hperm.
Qed.

Lemma compileColumns_order_independent_witness :
  compileColumns [("Sales", sales); ("Refunds", refunds)] true
  ≡ₚ compileColumns [("Refunds", refunds); ("Sales", sales)] true.
Proof.
  apply compileColumns_order_independent. apply perm_swap.
Defined.

(** ** [main]: where it writes, and when it fails *)

(** X7. When [main] succeeds, an output was given; the file is its first
    word, the sheet is its second word, or "Sheet1" when there is none
    (further words are ignored), and the index flag is passed on. *)
Theorem main_destination read_excel args call :
  main read_excel args = Some call →
  ∃ out, outpath args = Some out
    ∧ head out = Some (excel_path call)
    ∧ excel_sheet_name call = default "Sheet1" (out !! 1)
    ∧ excel_index call = include_index args.
Proof.
  unfold main. intros Hmain.
  destruct (filenames args) as [names|]; [|done]. simpl in Hmain.
  destruct (loadSheets read_excel names) as [frames|]; [|done].
  simpl in Hmain.
  destruct (outpath args) as [out|]; [|done]. simpl in Hmain.
  destruct (head out) as [outfile_name|] eqn:Hhead; [|done]. simpl in Hmain.
  injection Hmain as <-. exists out. simpl. repeat split; [done|].
  case_decide as Hlen; [done|].
  by rewrite lookup_ge_None_2 by lia.
Qed.

Lemma main_destination_witness :
  ∃ out,
    Some ["merged.xlsx"] = Some out
    ∧ head out = Some "merged.xlsx"
    ∧ "Sheet1" = default "Sheet1" (out !! 1)
    ∧ true = true.
Proof.
  exact (main_destination sample_read_excel
           {| filenames := Some [["sales.xlsx"]; ["refunds.xlsx"; "Refunds"]];
              outpath := Some ["merged.xlsx"];
              include_type := true; common_columns_only := false;
              include_index := true |}
           _ eq_refl).
Defined.

(** X8. [main] writes exactly when input entries were given, all of them
    load, and an output with at least one word was given; in every other
    case it stops with an exception and writes nothing. *)
Theorem main_succeeds_iff read_excel args :
  is_Some (main read_excel args)
  ↔ ∃ names out,
      filenames args = Some names
      ∧ is_Some (loadSheets read_excel names)
      ∧ outpath args = Some out
      ∧ out ≠ [].
Proof.
  unfold main. split.
  - intros [call Hmain].
    destruct (filenames args) as [names|]; [|done]. simpl in Hmain.
    destruct (loadSheets read_excel names) as [frames|] eqn:Hload; [|done].
    simpl in Hmain.
    destruct (outpath args) as [out|]; [|done]. simpl in Hmain.
    exists names, out. rewrite Hload.
    split; [done|split; [by eexists|split; [done|by intros ->]]].
  - intros (names & out & Hnames & [frames Hload] & Hout & Hne).
    rewrite Hnames. simpl. rewrite Hload. simpl. rewrite Hout. simpl.
    destruct out as [|outfile_name out]; [done|]. simpl. by eexists.
Qed.

(** X9. From disk to disk: the table that [main] writes has as many rows as
    the frames that [read_excel] returned for the entries, all together. *)
Theorem main_row_count read_excel args call :
  main read_excel args = Some call →
  ∃ names datas,
    filenames args = Some names
    ∧ Forall2 (λ f data, ∃ path, head f = Some path
                 ∧ read_excel path (sheetnames_of f) = Some data) names datas
    ∧ len (excel_frame call) = row_total (mjoin datas).
Proof.
  unfold main. intros Hmain.
  destruct (filenames args) as [names|]; [|done]. simpl in Hmain.
  destruct (loadSheets read_excel names) as [frames|] eqn:Hload; [|done].
  simpl in Hmain.
  destruct (outpath args) as [out|]; [|done]. simpl in Hmain.
  destruct (head out) as [outfile_name|]; [|done]. simpl in Hmain.
  injection Hmain as <-. simpl.
  apply loadSheets_Some in Hload as (datas & Hall & ->).
  exists names, datas. repeat split; [done|].
  unfold len. by rewrite merge_rows, length_fmap, length_all_rows.
Qed.

Lemma main_row_count_witness :
  ∃ names datas,
    Some [["sales.xlsx"]; ["refunds.xlsx"; "Refunds"]] = Some names
    ∧ Forall2 (λ f data, ∃ path, head f = Some path
                 ∧ sample_read_excel path (sheetnames_of f) = Some data)
              names datas
    ∧ 3 = row_total (mjoin datas).
Proof.
  exact (main_row_count sample_read_excel
           {| filenames := Some [["sales.xlsx"]; ["refunds.xlsx"; "Refunds"]];
              outpath := Some ["merged.xlsx"; "All"];
              include_type := false; common_columns_only := true;
              include_index := false |}
           _ eq_refl).
Defined.

(** ** The merged table: its records *)

Lemma all_rows_stamp_row t frames :
  all_rows t frames = frames ≫= (λ f : frame, stamp_row t f.1 <$> rows f.2).
Proof.
  induction frames as [|f frames IH]; [done|].
  by rewrite all_rows_cons, bind_cons, rows_stamp, IH.
Qed.

Lemma wf_frame_stamp t (f : frame) : wf_frame f.2 → wf_frame (stamp t f).2.
Proof.
  unfold wf_frame. rewrite rows_stamp, col_set_stamp, Forall_fmap.
  intros Hwf. eapply Forall_impl; [exact Hwf|]. intros r Hr. simpl.
  destruct t; simpl.
  - rewrite dom_insert_L. set_solver.
  - set_solver.
Qed.

(** X10. The merged table is well formed in both join modes, whatever the
    loaded tables: no merged record holds a cell under a label that is not a
    column of the merged table. *)
Theorem merged_table_wf frames add_type common_only :
  wf_frame (merge frames add_type common_only).1.
Proof.
  unfold wf_frame. rewrite merge_rows. apply Forall_fmap, Forall_forall.
  intros r _. simpl. intros c [v Hv]%elem_of_dom.
  rewrite reindex_lookup in Hv. case_decide; [|done].
  by apply elem_of_list_to_set.
Qed.

(** X11. A union join loses nothing: the merged records are exactly the
    records of the loaded tables, table after table, each with all its cells
    (and its sheet name under "Type" when the type column is enabled). *)
Theorem union_mode_keeps_records frames add_type :
  Forall (λ f : frame, wf_frame f.2) frames →
  rows (merge frames add_type false).1
  = frames ≫= (λ f : frame, stamp_row add_type f.1 <$> rows f.2).
Proof.
  intros Hwf. rewrite merge_rows, <-all_rows_stamp_row.
  rewrite <-(list_fmap_id (all_rows add_type frames)) at 2.
  apply list_fmap_ext. intros i r Hr. simpl.
  apply list_elem_of_lookup_2 in Hr. unfold all_rows in Hr.
  apply list_elem_of_bind in Hr as (f & Hr & Hf).
  apply map_filter_id. intros c v Hv. simpl.
  apply (elem_of_list_to_set (C := gset string)).
  change (c ∈ col_set (merge frames add_type false).1).
  rewrite merge_columns_outer.
  assert (c ∈ col_set (stamp add_type f).2) as Hc.
  { rewrite Forall_forall in Hwf.
    pose proof (wf_frame_stamp add_type f (Hwf f Hf)) as Hwf'.
    unfold wf_frame in Hwf'. rewrite Forall_forall in Hwf'.
    apply (Hwf' r Hr). apply elem_of_dom. by exists v. }
  rewrite col_set_stamp in Hc. apply elem_of_union in Hc as [Hc|Hc].
  - apply elem_of_union_l, elem_of_union_columns. exists f.
    split; [done|]. by apply elem_of_list_to_set in Hc.
  - by apply elem_of_union_r.
Qed.

Lemma union_mode_keeps_records_witness :
  rows (merge scenario true false).1
  = [ <["Type" := VStr "Sales"]> {[ "Name" := VStr "ann"; "Amount" := VNum 10 ]};
      <["Type" := VStr "Sales"]> {[ "Name" := VStr "bob"; "Amount" := VNum 20 ]};
      <["Type" := VStr "Refunds"]> {[ "Name" := VStr "cy"; "Reason" := VStr "late" ]} ].
Proof.
  apply (union_mode_keeps_records scenario true).
  apply (bool_decide_unpack _). vm_compute. exact I.
Defined.

(** X12. In intersection mode, sheets without a common column (and no type
    column) still give one merged record per loaded record, but the merged
    table has no column and every merged record is empty. *)
Theorem intersection_mode_disjoint frames :
  common_columns frames = ∅ →
  columns (merge frames false true).1 = []
  ∧ rows (merge frames false true).1 = replicate (row_total frames) ∅.
Proof.
  intros Hcommon.
  assert (columns (merge frames false true).1 = []) as Hcols.
  { pose proof (merge_columns_inner frames false) as Hset.
    rewrite Hcommon in Hset. unfold col_set in Hset.
    destruct (columns (merge frames false true).1) as [|c l]; [done|].
    exfalso. assert (c ∈ (list_to_set (c :: l) : gset string)) as Hc.
    { apply elem_of_list_to_set. left. }
    rewrite Hset in Hc. simpl in Hc. set_solver. }
  split; [done|]. rewrite merge_rows, Hcols, <-(length_all_rows false).
  apply const_fmap. intros _ r _.
  apply map_eq. intros c. rewrite reindex_lookup, lookup_empty.
  case_decide as Hin; [|done]. by apply elem_of_nil in Hin.
Qed.

Lemma intersection_mode_disjoint_witness :
  columns (merge [("A", {| columns := ["x"]; rows := [{["x" := VNum 1]}] |});
                  ("B", {| columns := ["y"]; rows := [{["y" := VNum 2]}] |})]
             false true).1 = []
  ∧ rows (merge [("A", {| columns := ["x"]; rows := [{["x" := VNum 1]}] |});
                 ("B", {| columns := ["y"]; rows := [{["y" := VNum 2]}] |})]
            false true).1 = [∅; ∅].
Proof.
  apply (intersection_mode_disjoint
           [("A", {| columns := ["x"]; rows := [{["x" := VNum 1]}] |});
            ("B", {| columns := ["y"]; rows := [{["y" := VNum 2]}] |})]).
  vm_compute. reflexivity.
Defined.

(** ** The merged table: its column labels *)

Lemma label_le_total : Total label_le.
Proof. intros a b. unfold label_le. apply String.leb_total. Qed.

Lemma NoDup_safe_sort_index idx : NoDup idx → NoDup (safe_sort_index idx).
Proof.
  unfold safe_sort_index. by rewrite (merge_sort_Permutation label_le idx).
Qed.

Lemma NoDup_combined_index j a b :
  NoDup a → (j = outer → NoDup b) → NoDup (combined_index j a b).
Proof.
  intros Ha Hb. apply NoDup_safe_sort_index. destruct j.
  - unfold Index_union. apply NoDup_app. split; [done|split].
    + intros c Hc [Hnot _]%list_elem_of_filter. by apply Hnot.
    + by apply NoDup_filter, Hb.
  - unfold Index_intersection. by apply NoDup_filter.
Qed.

Lemma NoDup_columns_stamp t (f : frame) :
  NoDup (columns f.2) → NoDup (columns (stamp t f).2).
Proof.
  intros Hf. destruct t; simpl; [|done]. case_decide as Hin; [done|].
  apply NoDup_app. split; [done|split].
  - intros c Hc ->%list_elem_of_singleton. by apply Hin.
  - apply NoDup_singleton.
Qed.

Lemma NoDup_columns_loop t j frames : ∀ out,
  NoDup (columns out) →
  (j = outer → Forall (λ f : frame, NoDup (columns f.2)) frames) →
  NoDup (columns (foldl (step t j) out frames)).
Proof.
  induction frames as [|f frames IH]; intros out Hout Hall; [done|].
  simpl. apply IH.
  - unfold step. simpl. apply NoDup_combined_index; [done|].
    intros Hj. apply NoDup_columns_stamp.
    by apply Forall_cons in Hall as [Hf _].
  - intros Hj. by apply Forall_cons in Hall as [_ Hall].
Qed.

(** X13. In union mode, once a table has been merged, [sort=True] leaves
    the column labels of the merged table in ascending order. *)
Theorem merged_columns_sorted frames add_type :
  frames ≠ [] →
  Sorted label_le (columns (merge frames add_type false).1).
Proof.
  intros Hne. rewrite merge_fst.
  destruct (exists_last Hne) as (init & f & ->).
  rewrite foldl_snoc. unfold step at 1. simpl. unfold combined_index.
  apply (@Sorted_merge_sort _ label_le _ label_le_total).
Qed.

Lemma merged_columns_sorted_witness :
  Sorted label_le (columns (merge scenario true false).1).
Proof.
  apply merged_columns_sorted. discriminate.
Defined.

(** X14. When no loaded table has a label twice, no label occurs twice
    among the columns of the merged table, in either join mode; a table
    that already has a "Type" column does not get a second one. *)
Theorem merged_columns_NoDup frames add_type common_only :
  Forall (λ f : frame, NoDup (columns f.2)) frames →
  NoDup (columns (merge frames add_type common_only).1).
Proof.
  intros Hall. rewrite merge_fst. apply NoDup_columns_loop; [|done].
  simpl. apply NoDup_elements.
Qed.

Lemma merged_columns_NoDup_witness :
  NoDup (columns (merge scenario true false).1).
Proof.
  apply merged_columns_NoDup.
  apply (bool_decide_unpack _). vm_compute. exact I.
Defined.

(** ** What the merged table does not depend on *)

Lemma compileColumns_elements frames add_type :
  compileColumns frames add_type
  = elements (type_column add_type ∪ union_columns frames).
Proof.
  unfold compileColumns. rewrite compileColumns_outer_loop.
  destruct add_type; simpl; f_equal; set_solver.
Qed.

Lemma union_columns_snd frames :
  union_columns frames = ⋃ (col_set <$> frames.*2).
Proof. unfold union_columns. by rewrite <-list_fmap_compose. Qed.

Lemma loop_without_type j frames : ∀ out,
  foldl (step false j) out frames = foldl (concat j) out frames.*2.
Proof. induction frames as [|f frames IH]; intros out; simpl; [done|]. apply IH. Qed.

(** X15. Without the type column the sheet names play no part: two loads
    with the same tables in the same order, under whatever names, merge
    into the same table. *)
Theorem merge_ignores_sheet_names (frames frames' : list frame) common_only :
  frames.*2 = frames'.*2 →
  (merge frames false common_only).1 = (merge frames' false common_only).1.
Proof.
  intros Hsame. rewrite !merge_fst, !loop_without_type, !compileColumns_elements.
  by rewrite !union_columns_snd, Hsame.
Qed.

Lemma merge_ignores_sheet_names_witness :
  (merge [("Sales", sales); ("Refunds", refunds)] false true).1
  = (merge [("Sheet1", sales); ("Sheet1", refunds)] false true).1.
Proof.
  apply merge_ignores_sheet_names. reflexivity.
Defined.

Lemma common_columns_Permutation frames frames' :
  frames ≡ₚ frames' → common_columns frames = common_columns frames'.
Proof.
  intros Hperm. apply set_eq. intros c. rewrite !elem_of_common_columns.
  assert (frames ≠ [] ↔ frames' ≠ []) as Hne.
  { split; intros Hn ->; apply Hn.
    - by apply Permutation_nil_r.
    - by apply Permutation_nil_r. }
  rewrite Hne. by setoid_rewrite Hperm.
Qed.

Lemma union_columns_Permutation frames frames' :
  frames ≡ₚ frames' → union_columns frames = union_columns frames'.
Proof.
  intros Hperm. apply set_eq. intros c. rewrite !elem_of_union_columns.
  by setoid_rewrite Hperm.
Qed.

(** X16. The column set of the merged table does not depend on the order in
    which the tables were loaded, in either join mode and with or without
    the type column. *)
Theorem merged_columns_order_independent frames frames' add_type common_only :
  frames ≡ₚ frames' →
  col_set (merge frames add_type common_only).1
  = col_set (merge frames' add_type common_only).1.
Proof.
  intros Hperm. destruct common_only.
  - by rewrite !merge_columns_inner, (common_columns_Permutation _ _ Hperm).
  - by rewrite !merge_columns_outer, (union_columns_Permutation _ _ Hperm).
Qed.

Lemma merged_columns_order_independent_witness :
  col_set (merge [("Sales", sales); ("Refunds", refunds)] true true).1
  = col_set (merge [("Refunds", refunds); ("Sales", sales)] true true).1.
Proof.
  apply merged_columns_order_independent. apply perm_swap.
Defined.

(** ** Cells of the merged table *)

(** X17. No cell is altered on the way: under every column of the merged
    table, in either join mode, the merged record that comes from record
    [i] of a loaded table reads what that record holds there (its sheet name
    under "Type" when the type column is enabled). *)
Theorem merged_cell_is_source_cell frames add_type common_only pre name df post i r col :
  frames = pre ++ (name, df) :: post →
  rows df !! i = Some r →
  col ∈ columns (merge frames add_type common_only).1 →
  loc (merge frames add_type common_only).1 (row_total pre + i) col
  = stamp_row add_type name r !! col.
Proof.
  intros Hframes Hr Hcol. unfold loc.
  rewrite (merge_lookup frames add_type common_only pre (name, df) post i r
             Hframes Hr).
  simpl. by rewrite reindex_lookup, decide_True.
Qed.

Lemma merged_cell_is_source_cell_witness :
  loc (merge scenario false true).1 2 "Name" = Some (VStr "cy").
Proof.
  change (loc (merge scenario false true).1 (row_total [("Sales", sales)] + 0)
            "Name"
          = stamp_row false "Refunds"
              {[ "Name" := VStr "cy"; "Reason" := VStr "late" ]} !! "Name").
  apply (merged_cell_is_source_cell scenario false true [("Sales", sales)]
           "Refunds" refunds [] 0
           {[ "Name" := VStr "cy"; "Reason" := VStr "late" ]} "Name").
  - reflexivity.
  - reflexivity.
  - apply (bool_decide_unpack _). vm_compute. exact I.
Defined.

(** ** Row order *)

(** C4. The merged records are the records of the loaded tables, table
    after table in load order and, inside each table, in the table's own
    order, each cut to the merged columns.  Record [i] of a table is at place
    [row_total pre + i], [pre] being the tables loaded before it, so that
    places grow with [i]; every record of a table loaded earlier comes before
    every record of a table loaded later. *)
Theorem row_order_preserved frames add_type common_only :
  let out := (merge frames add_type common_only).1 in
  rows out
  = (λ r : row, filter (λ kv, kv.1 ∈ columns out) r)
    <$> (frames ≫= (λ f : frame, stamp_row add_type f.1 <$> rows f.2))
  ∧ (∀ pre (A : frame) post i rA,
       frames = pre ++ A :: post →
       rows A.2 !! i = Some rA →
       rows out !! (row_total pre + i)
       = Some (filter (λ kv, kv.1 ∈ columns out) (stamp_row add_type A.1 rA)))
  ∧ (∀ pre (A : frame) mid (B : frame) post i j,
       frames = pre ++ A :: mid ++ B :: post →
       i < len A.2 → j < len B.2 →
       row_total pre + i < row_total (pre ++ A :: mid) + j).
Proof.
  intros out. split; [|split].
  - unfold out. rewrite merge_rows, all_rows_stamp_row. reflexivity.
  - intros pre A post i rA Hframes HA.
    exact (merge_lookup frames add_type common_only pre A post i rA Hframes HA).
  - intros pre A mid B post i j _ Hi Hj.
    rewrite row_total_app, row_total_cons. lia.
Qed.

Lemma row_order_preserved_witness :
  rows (merge [("Sales", sales); ("Empty", DataFrame_new ["Name"])] false false).1
  = [ {[ "Name" := VStr "ann"; "Amount" := VNum 10 ]};
      {[ "Name" := VStr "bob"; "Amount" := VNum 20 ]} ]
  ∧ rows (merge scenario true true).1 !! 1
    = Some {[ "Name" := VStr "bob"; "Type" := VStr "Sales" ]}
  ∧ rows (merge scenario true true).1 !! 2
    = Some {[ "Name" := VStr "cy"; "Type" := VStr "Refunds" ]}.
Proof.
  split; [|split].
  - pose proof (proj1 (row_order_preserved
                         [("Sales", sales); ("Empty", DataFrame_new ["Name"])]
                         false false)) as Hrows.
    vm_compute in Hrows; vm_compute. exact Hrows.
  - pose proof (proj1 (proj2 (row_order_preserved scenario true true))
                  [] ("Sales", sales) [("Refunds", refunds)] 1 _
                  eq_refl eq_refl) as Hrow.
    vm_compute in Hrow; vm_compute. exact Hrow.
  - pose proof (proj1 (proj2 (row_order_preserved scenario true true))
                  [("Sales", sales)] ("Refunds", refunds) [] 0 _
                  eq_refl eq_refl) as Hrow.
    vm_compute in Hrow; vm_compute. exact Hrow.
Defined.

(** ** Mismatched column sets *)

Lemma merge_loop_checked_Some t j frames : ∀ out,
  NoDup (columns out) →
  Forall (λ f : frame, NoDup (columns f.2)) frames →
  merge_loop_checked t j out frames = Some (merge_loop t j out frames).
Proof.
  induction frames as [|f frames IH]; intros out Hout Hall; simpl; [done|].
  apply Forall_cons in Hall as [Hf Hall].
  pose proof (NoDup_columns_stamp t f Hf) as Hf'.
  unfold concat_checked. rewrite decide_True by done. simpl.
  rewrite IH; [|by apply NoDup_combined_index|done]. simpl.
  by destruct (merge_loop t j (concat j out (stamp t f).2) frames).
Qed.

Lemma merge_checked_Some frames t c :
  Forall (λ f : frame, NoDup (columns f.2)) frames →
  merge_checked frames t c = Some (merge frames t c).
Proof.
  intros Hall. unfold merge_checked, merge.
  apply merge_loop_checked_Some; [|done]. simpl. apply NoDup_elements.
Qed.

(** A repeated label inside one table is what makes the merge raise. *)
Lemma merge_checked_repeated_label :
  merge_checked [("S", DataFrame_new ["a"; "a"])] false false = None.
Proof. vm_compute. reflexivity. Qed.

Lemma stamp_row_wf t name df (r : row) :
  wf_frame df → r ∈ rows df →
  ∀ c, is_Some (stamp_row t name r !! c) → c ∈ col_set df ∪ type_column t.
Proof.
  intros Hwf Hr c Hc. unfold wf_frame in Hwf. rewrite Forall_forall in Hwf.
  specialize (Hwf r Hr). apply elem_of_dom in Hc. destruct t; simpl in *.
  - rewrite dom_insert_L in Hc. set_solver.
  - set_solver.
Qed.

(** C8. Tables whose column sets differ never make the merge raise: when
    no table repeats a label inside itself, the merge returns its table in
    both join modes.  For a column that a table lacks: in a union join it is
    a column of the merged table exactly when some table has it, every record
    of the table is there, at its place, with all its cells, and reads
    missing under that column; in an intersection join the column is dropped
    and every record of the table is there, at its place, cut to the merged
    columns. *)
Theorem mismatched_columns_resolved frames add_type :
  (Forall (λ f : frame, NoDup (columns f.2)) frames →
   ∀ common_only,
     merge_checked frames add_type common_only
     = Some (merge frames add_type common_only))
  ∧ (∀ pre name df post col,
       frames = pre ++ (name, df) :: post →
       col ∉ columns df → col ∉ type_column add_type →
       (col ∈ columns (merge frames add_type false).1
        ↔ ∃ g : frame, g ∈ frames ∧ col ∈ columns g.2)
       ∧ col ∉ columns (merge frames add_type true).1)
  ∧ (∀ pre name df post col i r,
       frames = pre ++ (name, df) :: post →
       wf_frame df → col ∉ columns df → col ∉ type_column add_type →
       rows df !! i = Some r →
       rows (merge frames add_type false).1 !! (row_total pre + i)
       = Some (stamp_row add_type name r)
       ∧ stamp_row add_type name r !! col = None)
  ∧ (∀ pre name df post i r,
       frames = pre ++ (name, df) :: post →
       rows df !! i = Some r →
       rows (merge frames add_type true).1 !! (row_total pre + i)
       = Some (filter (λ kv, kv.1 ∈ columns (merge frames add_type true).1)
                 (stamp_row add_type name r))).
Proof.
  split; [|split; [|split]].
  - intros Hall c. by apply merge_checked_Some.
  - intros pre name df post col Hframes Hcol Htype. split.
    + rewrite <-(elem_of_list_to_set (C := gset string)).
      change (col ∈ col_set (merge frames add_type false).1 ↔
              ∃ g : frame, g ∈ frames ∧ col ∈ columns g.2).
      rewrite merge_columns_outer, elem_of_union, elem_of_union_columns.
      tauto.
    + intros Hin. apply (elem_of_list_to_set (C := gset string)) in Hin.
      change (col ∈ col_set (merge frames add_type true).1) in Hin.
      rewrite merge_columns_inner in Hin.
      apply elem_of_union in Hin as [Hin|Hin]; [|done].
      apply elem_of_common_columns in Hin as [_ Hall].
      apply Hcol, (Hall (name, df)). rewrite Hframes.
      apply elem_of_app. right. left.
  - intros pre name df post col i r Hframes Hwf Hcol Htype Hr.
    assert (∀ c, is_Some (stamp_row add_type name r !! c)
                 → c ∈ col_set df ∪ type_column add_type) as Hdom.
    { apply stamp_row_wf; [done|]. by eapply list_elem_of_lookup_2. }
    split.
    + rewrite (merge_lookup frames add_type false pre (name, df) post i r
                 Hframes Hr). simpl. f_equal.
      apply map_filter_id. intros c v Hv. simpl.
      apply (elem_of_list_to_set (C := gset string)).
      change (c ∈ col_set (merge frames add_type false).1).
      rewrite merge_columns_outer.
      pose proof (Hdom c (mk_is_Some _ _ Hv)) as [Hc|Hc]%elem_of_union.
      * apply elem_of_union_l, elem_of_union_columns. exists (name, df).
        split; [|by apply elem_of_list_to_set in Hc].
        rewrite Hframes. apply elem_of_app. right. left.
      * by apply elem_of_union_r.
    + apply eq_None_not_Some. intros Hsome.
      apply Hdom in Hsome as [Hc|Hc]%elem_of_union; [|done].
      by apply elem_of_list_to_set in Hc.
  - intros pre name df post i r Hframes Hr.
    exact (merge_lookup frames add_type true pre (name, df) post i r
             Hframes Hr).
Qed.

Lemma mismatched_columns_resolved_witness :
  (∀ common_only,
     merge_checked scenario true common_only
     = Some (merge scenario true common_only))
  ∧ "Reason" ∈ columns (merge scenario true false).1
  ∧ ("Reason" ∉ columns (merge scenario true true).1)
  ∧ rows (merge scenario true false).1 !! 1
    = Some {[ "Name" := VStr "bob"; "Amount" := VNum 20;
              "Type" := VStr "Sales" ]}
  ∧ ({[ "Name" := VStr "bob"; "Amount" := VNum 20;
        "Type" := VStr "Sales" ]} : row) !! "Reason" = None
  ∧ rows (merge scenario true true).1 !! 1
    = Some {[ "Name" := VStr "bob"; "Type" := VStr "Sales" ]}.
Proof.
  destruct (mismatched_columns_resolved scenario true)
    as (Hraise & Hcols & Hunion & Hinter).
  assert ("Reason" ∉ columns sales) as Hlacks
    by (apply (bool_decide_unpack _); vm_compute; exact I).
  assert ("Reason" ∉ type_column true) as Htype
    by (apply (bool_decide_unpack _); vm_compute; exact I).
  assert (wf_frame sales) as Hwf
    by (apply (bool_decide_unpack _); vm_compute; exact I).
  destruct (Hcols [] "Sales" sales [("Refunds", refunds)] "Reason"
              eq_refl Hlacks Htype) as [Hin Hout].
  destruct (Hunion [] "Sales" sales [("Refunds", refunds)] "Reason" 1 _
              eq_refl Hwf Hlacks Htype eq_refl) as [Hrow Hmissing].
  pose proof (Hinter [] "Sales" sales [("Refunds", refunds)] 1 _
                eq_refl eq_refl) as Hrow'.
  split; [|split; [|split; [|split; [|split]]]].
  - apply Hraise. apply (bool_decide_unpack _). vm_compute. exact I.
  - apply Hin. exists ("Refunds", refunds). split.
    + apply (bool_decide_unpack _). vm_compute. exact I.
    + apply (bool_decide_unpack _). vm_compute. exact I.
  - exact Hout.
  - vm_compute in Hrow; vm_compute. exact Hrow.
  - vm_compute in Hmissing; vm_compute. exact Hmissing.
  - vm_compute in Hrow'; vm_compute. exact Hrow'.
Defined.
